(** * into_inner_drop: a shallow embedding of [IntoInnerHelper] and [DetachedDrop]

    The crate consists of one trait, [DetachedDrop], and one wrapper,
    [IntoInnerHelper<T, D>], whose field is a [ManuallyDrop<T>].

    Rust's ownership discipline is made explicit here:
    - the unsafe bodies of [into_inner] and of [Drop::drop] are written as
      the sequence of primitive steps of the source ([ptr::read],
      [mem::forget]) over the local variables of the function, with the
      locals dropped in reverse declaration order at scope exit or while
      unwinding from a panic;
    - a client program is a sequence of operations on named local
      variables (an association list, most recent binding first); using a
      moved-out variable is a type error (the step returns [None]); at the
      end of the scope the remaining variables are dropped in reverse
      declaration order;
    - side effects that matter to the crate are logged as events: a call
      of [D::drop] on behalf of a helper instance, and the run of the
      payload's own destructor. Every helper instance carries a ghost
      instance number, used only to name it in the event log. *)

From Stdlib Require Import String.
From Stdlib Require Import List Arith Bool Lia Permutation.
Import ListNotations.

Section IntoInnerDrop.

(** The payload type [T] (the [Implementor] of the [DetachedDrop] impl). *)
Context {T : Type}.

(** The body of the user's [fn drop(value: Self::Implementor)] of the
    [DetachedDrop] impl [D], described by the payload values whose own
    destructor it runs. The tests' [Dummy] impl, [fn drop(_: ...) {}],
    drops its argument: [fun v => [v]]. *)
Context (D_drop_body : T -> list T).

(** ** Data *)

(** [core::mem::ManuallyDrop<T>]: a transparent wrapper without drop glue. *)
Record ManuallyDrop := ManuallyDrop_new { ManuallyDrop_deref : T }.

(** [core::marker::PhantomData<D>]: a zero-sized marker. *)
Inductive PhantomData := PhantomData_default.

(** [pub struct IntoInnerHelper<T, D> { inner: ManuallyDrop<T>,
    _phantom: PhantomData<D> }] *)
Record IntoInnerHelper := mkIntoInnerHelper {
  helper_inner : ManuallyDrop;
  helper_phantom : PhantomData
}.

(** Observable effects. [Finalized i v]: [D::drop] is called with [v] on
    behalf of the helper instance [i]. [PayloadDropped v]: the destructor
    of the payload [v] (of type [T]) runs. *)
Inductive event :=
| Finalized (i : nat) (v : T)
| PayloadDropped (v : T).

(** ** The crate's functions *)

(** [unsafe fn core::ptr::read(&*self.inner)]: a bitwise copy of the
    payload out of its slot; no destructor runs. *)
Definition ptr_read (m : ManuallyDrop) : T := ManuallyDrop_deref m.

(** [pub fn new(inner: T) -> Self] *)
Definition new (inner : T) : IntoInnerHelper :=
  {| helper_inner := ManuallyDrop_new inner;
     helper_phantom := PhantomData_default |}.

(** [pub fn inner(&self) -> &T { &*self.inner }]: the shared reference is
    modelled by the value it points to. *)
Definition inner (self : IntoInnerHelper) : T :=
  ManuallyDrop_deref (helper_inner self).

(** [pub fn inner_mut(&mut self) -> &mut T { &mut *self.inner }]: the
    exclusive reference is modelled as a place, the value it points to
    together with the write through it (which yields the updated helper). *)
Definition inner_mut (self : IntoInnerHelper) : T * (T -> IntoInnerHelper) :=
  (ManuallyDrop_deref (helper_inner self),
   fun q => {| helper_inner := ManuallyDrop_new q;
               helper_phantom := helper_phantom self |}).

(** A call [D::drop(v)] on behalf of instance [i]: the call itself, then
    the effects of its body. *)
Definition DetachedDrop_drop (i : nat) (v : T) : list event :=
  Finalized i v :: map PayloadDropped (D_drop_body v).

(** [impl Drop for IntoInnerHelper]:
    [fn drop(&mut self) { unsafe { D::drop(core::ptr::read(&*self.inner)); } }] *)
Definition IntoInnerHelper_Drop_drop (i : nat) (self : IntoInnerHelper)
  : list event :=
  DetachedDrop_drop i (ptr_read (helper_inner self)).

(** Drop glue of the fields: [ManuallyDrop] and [PhantomData] have none. *)
Definition drop_glue_ManuallyDrop (_ : ManuallyDrop) : list event := [].
Definition drop_glue_PhantomData (_ : PhantomData) : list event := [].

(** [core::ptr::drop_in_place] on a helper: [Drop::drop], then the fields'
    drop glue. *)
Definition drop_in_place_helper (i : nat) (self : IntoInnerHelper)
  : list event :=
  IntoInnerHelper_Drop_drop i self
  ++ drop_glue_ManuallyDrop (helper_inner self)
  ++ drop_glue_PhantomData (helper_phantom self).

(** *** The body of [into_inner]

    [pub fn into_inner(self) -> T {
       unsafe { let inner = core::ptr::read(&*self.inner);
                core::mem::forget(self);
                inner } }] *)

(** Locals of the function body: the argument [self] and the temporary
    [inner]. *)
Inductive local :=
| LSelf (h : IntoInnerHelper)
| LTemp (v : T).

(** Primitive steps of the body. *)
Inductive prim :=
| PtrReadInner    (* let inner = core::ptr::read(&*self.inner); *)
| MemForgetSelf   (* core::mem::forget(self); *)
| ReturnTemp.     (* inner  (moved out as the return value) *)

Definition into_inner_body : list prim :=
  [PtrReadInner; MemForgetSelf; ReturnTemp].

(** Whether a primitive step may panic. [ptr::read] of a valid place,
    [mem::forget] and a move are infallible. *)
Definition prim_can_panic (p : prim) : bool :=
  match p with
  | PtrReadInner => false
  | MemForgetSelf => false
  | ReturnTemp => false
  end.

Fixpoint find_self (sc : list local) : option IntoInnerHelper :=
  match sc with
  | [] => None
  | LSelf h :: _ => Some h
  | _ :: sc' => find_self sc'
  end.

Fixpoint remove_self (sc : list local) : list local :=
  match sc with
  | [] => []
  | LSelf _ :: sc' => sc'
  | l :: sc' => l :: remove_self sc'
  end.

Fixpoint take_temp (sc : list local) : option (T * list local) :=
  match sc with
  | [] => None
  | LTemp v :: sc' => Some (v, sc')
  | l :: sc' =>
      match take_temp sc' with
      | Some (v, r) => Some (v, l :: r)
      | None => None
      end
  end.

(** One primitive step on the live locals (most recent first); the second
    component is the returned value, if the step returns. *)
Definition exec_prim (p : prim) (sc : list local)
  : option (list local * option T) :=
  match p with
  | PtrReadInner =>
      match find_self sc with
      | Some h => Some (LTemp (ptr_read (helper_inner h)) :: sc, None)
      | None => None
      end
  | MemForgetSelf =>
      match find_self sc with
      | Some _ => Some (remove_self sc, None)
      | None => None
      end
  | ReturnTemp =>
      match take_temp sc with
      | Some (v, sc') => Some (sc', Some v)
      | None => None
      end
  end.

(** Dropping a local at scope exit or during unwinding. *)
Definition drop_local (i : nat) (l : local) : list event :=
  match l with
  | LSelf h => drop_in_place_helper i h
  | LTemp v => [PayloadDropped v]
  end.

(** Live locals are dropped most recent first, i.e. in reverse declaration
    order. *)
Definition drop_scope (i : nat) (sc : list local) : list event :=
  flat_map (drop_local i) sc.

Inductive outcome :=
| Returned (v : T) (evs : list event)
| Panicked (evs : list event)
| Stuck.

Definition next_panic (pa : option nat) : option nat :=
  match pa with
  | Some (S k) => Some k
  | _ => None
  end.

(** Run a body on behalf of instance [i]. [pa = Some k] injects a panic at
    the [k]-th step if that step can panic; the live locals are then
    dropped while unwinding. *)
Fixpoint run_body (i : nat) (pa : option nat) (body : list prim)
  (sc : list local) (ret : option T) : outcome :=
  match body with
  | [] =>
      match ret with
      | Some v => Returned v (drop_scope i sc)
      | None => Stuck
      end
  | p :: rest =>
      if (match pa with Some 0 => true | _ => false end) && prim_can_panic p
      then Panicked (drop_scope i sc)
      else
        match exec_prim p sc with
        | Some (sc', r) =>
            run_body i (next_panic pa) rest sc'
              (match r with Some v => Some v | None => ret end)
        | None => Stuck
        end
  end.

(** [into_inner] on behalf of instance [i]. *)
Definition into_inner (i : nat) (self : IntoInnerHelper) : outcome :=
  run_body i None into_inner_body [LSelf self] None.


(** Whether, at each step executed while both [self] and a copy of its
    payload are live (the window in which the payload exists twice), the
    step cannot panic. A panic inside this window would drop both. *)
Definition has_self (sc : list local) : bool :=
  match find_self sc with Some _ => true | None => false end.

Definition has_temp (sc : list local) : bool :=
  existsb (fun l => match l with LTemp _ => true | LSelf _ => false end) sc.

Fixpoint window_safe (body : list prim) (sc : list local) : bool :=
  match body with
  | [] => true
  | p :: rest =>
      (negb (has_self sc && has_temp sc) || negb (prim_can_panic p))
      && match exec_prim p sc with
         | Some (sc', _) => window_safe rest sc'
         | None => false
         end
  end.

(** ** Client programs *)

(** A local variable of the client: a helper (with its ghost instance
    number) or a payload owned directly (e.g. one returned by
    [into_inner]). *)
Inductive var :=
| VCell (iid : nat) (h : IntoInnerHelper)
| VVal (v : T).

Record world := mkWorld {
  vars : list (nat * var);   (* most recent binding first *)
  next_iid : nat;
  log : list event
}.

Definition empty_world : world := mkWorld [] 0 [].

Inductive op :=
| ONew (x : nat) (p : T)          (* let x = IntoInnerHelper::new(p); *)
| OInner (x : nat)                (* let _ = x.inner(); *)
| OInnerMut (x : nat) (q : T)     (* *x.inner_mut() = q; *)
| OIntoInner (x y : nat)          (* let y = x.into_inner(); *)
| ODropCell (x : nat)             (* core::mem::drop(x); *)
| ODropVal (y : nat).             (* core::mem::drop(y); *)

Fixpoint lookup (x : nat) (vs : list (nat * var)) : option var :=
  match vs with
  | [] => None
  | (z, v) :: vs' => if Nat.eqb z x then Some v else lookup x vs'
  end.

Fixpoint remove_var (x : nat) (vs : list (nat * var)) : list (nat * var) :=
  match vs with
  | [] => []
  | (z, v) :: vs' => if Nat.eqb z x then vs' else (z, v) :: remove_var x vs'
  end.

Fixpoint update_var (x : nat) (v : var) (vs : list (nat * var))
  : list (nat * var) :=
  match vs with
  | [] => []
  | (z, u) :: vs' =>
      if Nat.eqb z x then (z, v) :: vs' else (z, u) :: update_var x v vs'
  end.

Definition is_unbound (x : nat) (w : world) : bool :=
  match lookup x (vars w) with None => true | Some _ => false end.

(** One client operation. [None]: the program does not type-check (use of
    a moved or undeclared variable, or of a variable of the other type);
    a new binding must use a fresh name. *)
Definition step (w : world) (o : op) : option world :=
  match o with
  | ONew x p =>
      if is_unbound x w then
        Some (mkWorld ((x, VCell (next_iid w) (new p)) :: vars w)
                      (S (next_iid w)) (log w))
      else None
  | OInner x =>
      match lookup x (vars w) with
      | Some (VCell _ h) => let _ := inner h in Some w
      | _ => None
      end
  | OInnerMut x q =>
      match lookup x (vars w) with
      | Some (VCell i h) =>
          let (old, put) := inner_mut h in
          (* the assignment drops the old value in place *)
          Some (mkWorld (update_var x (VCell i (put q)) (vars w)) (next_iid w)
                        (log w ++ [PayloadDropped old]))
      | _ => None
      end
  | OIntoInner x y =>
      match lookup x (vars w) with
      | Some (VCell i h) =>
          if is_unbound y w then
            match into_inner i h with
            | Returned v evs =>
                Some (mkWorld ((y, VVal v) :: remove_var x (vars w))
                              (next_iid w) (log w ++ evs))
            | _ => None
            end
          else None
      | _ => None
      end
  | ODropCell x =>
      match lookup x (vars w) with
      | Some (VCell i h) =>
          Some (mkWorld (remove_var x (vars w)) (next_iid w)
                        (log w ++ drop_in_place_helper i h))
      | _ => None
      end
  | ODropVal y =>
      match lookup y (vars w) with
      | Some (VVal v) =>
          Some (mkWorld (remove_var y (vars w)) (next_iid w)
                        (log w ++ [PayloadDropped v]))
      | _ => None
      end
  end.

Fixpoint run (w : world) (prog : list op) : option world :=
  match prog with
  | [] => Some w
  | o :: rest =>
      match step w o with
      | Some w' => run w' rest
      | None => None
      end
  end.

Definition drop_var (b : nat * var) : list event :=
  match snd b with
  | VCell i h => drop_in_place_helper i h
  | VVal v => [PayloadDropped v]
  end.

(** End of the client's scope: the remaining locals are dropped in reverse
    declaration order. *)
Definition finish (w : world) : world :=
  mkWorld [] (next_iid w) (log w ++ flat_map drop_var (vars w)).


(** ** Observations used by the statements *)

Definition is_fin_of (i : nat) (e : event) : bool :=
  match e with Finalized j _ => Nat.eqb j i | PayloadDropped _ => false end.

Definition is_fin (e : event) : bool :=
  match e with Finalized _ _ => true | PayloadDropped _ => false end.

(** The calls of [D::drop] on behalf of instance [i]. *)
Definition fins (i : nat) (l : list event) : list event :=
  filter (is_fin_of i) l.

(** The payloads whose destructor ran, in order. *)
Definition dropped (l : list event) : list T :=
  flat_map (fun e => match e with PayloadDropped v => [v] | Finalized _ _ => [] end) l.

Definition live (i : nat) (vs : list (nat * var)) : bool :=
  existsb (fun b => match snd b with VCell j _ => Nat.eqb j i | VVal _ => false end) vs.

Definition ncells (vs : list (nat * var)) : nat :=
  length (filter (fun b => match snd b with VCell _ _ => true | VVal _ => false end) vs).

Definition payload_of (v : var) : T :=
  match v with VCell _ h => inner h | VVal v => v end.

Definition payloads (vs : list (nat * var)) : list T :=
  map (fun b => payload_of (snd b)) vs.

(** Instance numbers in use are below [next_iid]. *)
Definition wf (w : world) : bool :=
  forallb (fun b => match snd b with
                    | VCell j _ => Nat.ltb j (next_iid w)
                    | VVal _ => true end) (vars w)
  && forallb (fun e => match e with
                       | Finalized j _ => Nat.ltb j (next_iid w)
                       | PayloadDropped _ => true end) (log w).

Definition count_new (prog : list op) : nat :=
  length (filter (fun o => match o with ONew _ _ => true | _ => false end) prog).

Definition count_into (prog : list op) : nat :=
  length (filter (fun o => match o with OIntoInner _ _ => true | _ => false end) prog).

(** The payload values a program hands over: constructed ones and ones
    written through [inner_mut]. *)
Definition introduced (prog : list op) : list T :=
  flat_map (fun o => match o with
                     | ONew _ p => [p]
                     | OInnerMut _ q => [q]
                     | _ => [] end) prog.

Definition is_borrow_of (x : nat) (o : op) : bool :=
  match o with
  | OInner z => Nat.eqb z x
  | OInnerMut z _ => Nat.eqb z x
  | _ => false
  end.

Definition is_terminal_of (x : nat) (o : op) : bool :=
  match o with
  | ODropCell z => Nat.eqb z x
  | OIntoInner z _ => Nat.eqb z x
  | _ => false
  end.

Definition is_drop (o : op) : bool :=
  match o with ODropCell _ => true | _ => false end.

(** The typing discipline of the client: variables used exist and have the
    right type, new bindings are fresh. *)
Definition op_well_typed (w : world) (o : op) : bool :=
  match o with
  | ONew x _ => is_unbound x w
  | OInner x | OInnerMut x _ | ODropCell x =>
      match lookup x (vars w) with Some (VCell _ _) => true | _ => false end
  | OIntoInner x y =>
      match lookup x (vars w) with
      | Some (VCell _ _) => is_unbound y w
      | _ => false
      end
  | ODropVal y =>
      match lookup y (vars w) with Some (VVal _) => true | _ => false end
  end.

(** The calls of [D::drop], on behalf of any instance. *)
Definition nfin (l : list event) : nat := length (filter is_fin l).

End IntoInnerDrop.

(** The [DetachedDrop] impl of the crate's tests, at payload type [nat]:
    [impl DetachedDrop for Dummy { fn drop(_: Self::Implementor) {} }];
    its argument is dropped when the call returns. *)
Definition Dummy_drop_body (v : nat) : list nat := [v].

(** ** Further observations *)

(** The helpers live under instance number [i] (a client variable holds
    at most one). *)
Definition cnt_cells {T : Type} (i : nat) (vs : list (nat * @var T)) : nat :=
  length (filter (fun b => match snd b with
                           | VCell j _ => Nat.eqb j i
                           | VVal _ => false end) vs).

(** The payloads handed to [D::drop], in order. *)
Definition handed {T : Type} (l : list (@event T)) : list T :=
  flat_map (fun e => match e with Finalized _ v => [v] | PayloadDropped _ => [] end) l.

(** *** The tests' [dropcheck] tokens

    A [dropcheck::DropToken] is identified by a number; its paired
    [DropState] reports [is_dropped] once the token's destructor has run,
    i.e. once the log records the token as a dropped payload. *)
Definition token_drops (tok : nat) (l : list (@event nat)) : nat :=
  count_occ Nat.eq_dec (dropped l) tok.

Definition is_dropped (tok : nat) (l : list (@event nat)) : bool :=
  Nat.ltb 0 (token_drops tok l).

(** *** The crate-level documentation example

    [pub(super) struct PrintOnDrop(pub(super) String);] (module [inner]) *)
Record inner_PrintOnDrop := inner_PrintOnDrop_mk { inner_PrintOnDrop_0 : string }.

(** [impl DetachedDrop for PrintOnDropImpl]:
    [fn drop(value) { println!("Dropping: {}", value.0); }]; [value] is
    dropped when the call returns. *)
Definition PrintOnDropImpl_drop_body (value : inner_PrintOnDrop)
  : list inner_PrintOnDrop := [value].

(** What [PrintOnDropImpl::drop] prints, for each of its calls in a log. *)
Definition PrintOnDropImpl_output (l : list (@event inner_PrintOnDrop))
  : list string :=
  flat_map (fun e => match e with
                     | Finalized _ v => [append "Dropping: " (inner_PrintOnDrop_0 v)]
                     | PayloadDropped _ => [] end) l.

(** [fn main()] of the example, for the two strings [s1] and [s2]
    (["Hello world!"] and ["Hello Rustceans!"] there); its printed lines.
    [let print_on_drop = PrintOnDrop::new(s1);] binds variable 1,
    [let dont_print_on_drop = PrintOnDrop::new(s2);] variable 2,
    [let string = dont_print_on_drop.into_string();] ([self.0.into_inner().0])
    variable 3; then [println!("NOT on drop: {}", string);] and the end of
    the scope. *)
Definition example_main (s1 s2 : string) : option (list string) :=
  match run PrintOnDropImpl_drop_body empty_world
          [ONew 1 (inner_PrintOnDrop_mk s1); ONew 2 (inner_PrintOnDrop_mk s2);
           OIntoInner 2 3] with
  | Some w =>
      match lookup 3 (vars w) with
      | Some (VVal v) =>
          Some (PrintOnDropImpl_output (log w)
                ++ [append "NOT on drop: " (inner_PrintOnDrop_0 v)]
                ++ PrintOnDropImpl_output
                     (flat_map (drop_var PrintOnDropImpl_drop_body) (vars w)))
      | _ => None
      end
  | None => None
  end.

(** ** Lemmas *)

Section Proofs.

Context {T : Type} (D_drop_body : T -> list T).

Local Abbreviation event := (@event T).
Local Abbreviation IntoInnerHelper := (@IntoInnerHelper T).
Local Abbreviation var := (@var T).
Local Abbreviation world := (@world T).
Local Abbreviation op := (@op T).
Local Abbreviation local := (@local T).
Local Abbreviation DetachedDrop_drop := (DetachedDrop_drop D_drop_body).
Local Abbreviation IntoInnerHelper_Drop_drop := (IntoInnerHelper_Drop_drop D_drop_body).
Local Abbreviation drop_in_place_helper := (drop_in_place_helper D_drop_body).
Local Abbreviation drop_local := (drop_local D_drop_body).
Local Abbreviation drop_scope := (drop_scope D_drop_body).
Local Abbreviation run_body := (run_body D_drop_body).
Local Abbreviation into_inner := (into_inner D_drop_body).
Local Abbreviation step := (step D_drop_body).
Local Abbreviation run := (run D_drop_body).
Local Abbreviation drop_var := (drop_var D_drop_body).
Local Abbreviation finish := (finish D_drop_body).


Lemma into_inner_returns (i : nat) (h : IntoInnerHelper) :
  into_inner i h = Returned (inner h) [].
Proof. destruct h as [[v] ph]; reflexivity. Qed.

Lemma run_body_into_inner (i : nat) (pa : option nat) (h : IntoInnerHelper) :
  run_body i pa into_inner_body [LSelf h] None = Returned (inner h) [].
Proof.
  destruct h as [[v] ph].
  destruct pa as [[|[|[|k]]]|]; reflexivity.
Qed.

Lemma fins_app (i : nat) (l1 l2 : list event) :
  fins i (l1 ++ l2) = fins i l1 ++ fins i l2.
Proof. unfold fins; apply filter_app. Qed.

Lemma fins_payload_drops (i : nat) (l : list T) :
  fins i (map PayloadDropped l) = [].
Proof. induction l; simpl; auto. Qed.

Lemma fins_drop_helper (i j : nat) (h : IntoInnerHelper) :
  fins i (drop_in_place_helper j h) =
  if Nat.eqb j i then [Finalized j (inner h)] else [].
Proof.
  unfold drop_in_place_helper, IntoInnerHelper_Drop_drop, DetachedDrop_drop.
  simpl. rewrite app_nil_r.
  change (filter (is_fin_of i) (map PayloadDropped (D_drop_body (ptr_read (helper_inner h)))))
    with (fins i (map PayloadDropped (D_drop_body (ptr_read (helper_inner h))))).
  rewrite fins_payload_drops. destruct (Nat.eqb j i); reflexivity.
Qed.

Lemma lookup_cell_live (x i : nat) (h : IntoInnerHelper) (vs : list (nat * var)) :
  lookup x vs = Some (VCell i h) -> live i vs = true.
Proof.
  induction vs as [|[z v] vs IH]; simpl; [discriminate|].
  destruct (Nat.eqb z x).
  - intros [= ->]. simpl. now rewrite Nat.eqb_refl.
  - intros H. rewrite (IH H). apply orb_true_r.
Qed.

Lemma live_remove (i x : nat) (vs : list (nat * var)) :
  live i (remove_var x vs) = true -> live i vs = true.
Proof.
  induction vs as [|[z v] vs IH]; simpl; [discriminate|].
  destruct (Nat.eqb z x); simpl.
  - intros H; rewrite H; apply orb_true_r.
  - intros H; apply orb_true_iff in H as [H|H]; rewrite ?H; auto.
    rewrite (IH H); apply orb_true_r.
Qed.

Lemma live_update (i x : nat) (u : var) (vs : list (nat * var)) :
  live i (update_var x u vs) = true ->
  live i vs = true \/ (match u with VCell j _ => Nat.eqb j i | VVal _ => false end) = true.
Proof.
  induction vs as [|[z v] vs IH]; simpl; [discriminate|].
  destruct (Nat.eqb z x); simpl.
  - intros H; apply orb_true_iff in H as [H|H]; auto.
    left; rewrite H; apply orb_true_r.
  - intros H; apply orb_true_iff in H as [H|H].
    + left; rewrite H; reflexivity.
    + destruct (IH H) as [H'|H']; auto. left; rewrite H'; apply orb_true_r.
Qed.


(** An instance that is no longer live and whose number is in the past is
    never finalized again: neither by a later step nor at scope end. *)
Lemma step_dead (i : nat) (w w' : world) (o : op) :
  live i (vars w) = false -> i < next_iid w -> step w o = Some w' ->
  fins i (log w') = fins i (log w) /\ live i (vars w') = false /\ i < next_iid w'.
Proof.
  intros Hl Hn Hs. unfold step in Hs.
  destruct o as [x p|x|x q|x y|x|y]; cbv beta iota in Hs.
  - destruct (is_unbound x w); [|discriminate]. injection Hs as <-; simpl.
    refine (conj _ (conj _ _)); [| |lia].
    + reflexivity.
    + apply orb_false_iff; split; [apply Nat.eqb_neq; lia|exact Hl].
  - destruct (lookup x (vars w)) as [[j h|v]|]; try discriminate.
    injection Hs as <-; auto.
  - destruct (lookup x (vars w)) as [[j h|v]|] eqn:E; try discriminate.
    injection Hs as <-; simpl. rewrite fins_app; simpl.
    refine (conj _ (conj _ _)); [apply app_nil_r| |exact Hn].
    match goal with |- ?g = false => destruct g eqn:L; [|reflexivity] end.
    apply live_update in L as [L|L]; [congruence|].
    apply Nat.eqb_eq in L; subst j.
    rewrite (lookup_cell_live _ _ _ _ E) in Hl; discriminate.
  - destruct (lookup x (vars w)) as [[j h|v]|] eqn:E; try discriminate.
    destruct (is_unbound y w); [|discriminate].
    rewrite into_inner_returns in Hs. injection Hs as <-; simpl.
    rewrite app_nil_r. refine (conj eq_refl (conj _ Hn)).
    destruct (live i (remove_var x (vars w))) eqn:L; [|reflexivity].
    apply live_remove in L; congruence.
  - destruct (lookup x (vars w)) as [[j h|v]|] eqn:E; try discriminate.
    injection Hs as <-; simpl. rewrite fins_app, fins_drop_helper.
    refine (conj _ (conj _ _)); [| |exact Hn].
    + destruct (Nat.eqb j i) eqn:J; [|apply app_nil_r].
      apply Nat.eqb_eq in J; subst j.
      rewrite (lookup_cell_live _ _ _ _ E) in Hl; discriminate.
    + destruct (live i (remove_var x (vars w))) eqn:L; [|reflexivity].
      apply live_remove in L; congruence.
  - destruct (lookup y (vars w)) as [[j h|v]|] eqn:E; try discriminate.
    injection Hs as <-; simpl. rewrite fins_app; simpl.
    refine (conj _ (conj _ _)); [apply app_nil_r| |exact Hn].
    destruct (live i (remove_var y (vars w))) eqn:L; [|reflexivity].
    apply live_remove in L; congruence.
Qed.

Lemma run_dead (i : nat) (prog : list op) (w w' : world) :
  live i (vars w) = false -> i < next_iid w -> run w prog = Some w' ->
  fins i (log w') = fins i (log w) /\ live i (vars w') = false.
Proof.
  revert w; induction prog as [|o prog IH]; intros w Hl Hn Hr; simpl in Hr.
  - injection Hr as <-; auto.
  - destruct (step w o) as [w1|] eqn:S; [|discriminate].
    destruct (step_dead _ _ _ _ Hl Hn S) as (F & L & N).
    destruct (IH _ L N Hr) as [F' L']. split; [congruence|exact L'].
Qed.

Lemma finish_dead (i : nat) (w : world) :
  live i (vars w) = false -> fins i (log (finish w)) = fins i (log w).
Proof.
  destruct w as [vs n l]; simpl. intros Hl.
  rewrite fins_app. enough (fins i (flat_map drop_var vs) = []) as ->
    by apply app_nil_r.
  induction vs as [|[z [j h|v]] vs IH]; simpl in *; [reflexivity| |].
  - apply orb_false_iff in Hl as [Hj Hl].
    change (fins i (drop_in_place_helper j h ++ flat_map drop_var vs) = []).
    rewrite fins_app, fins_drop_helper, Hj.
    exact (IH Hl).
  - change (fins i (PayloadDropped v :: flat_map drop_var vs) = []).
    exact (IH Hl).
Qed.

Lemma run_app (w : world) (p1 p2 : list op) :
  run w (p1 ++ p2) = match run w p1 with Some w' => run w' p2 | None => None end.
Proof.
  revert w; induction p1 as [|o p1 IH]; intros w; simpl; [reflexivity|].
  destruct (step w o); [apply IH|reflexivity].
Qed.

Lemma wf_not_live (w : world) :
  wf w = true -> live (next_iid w) (vars w) = false.
Proof.
  destruct w as [vs n l]; unfold wf; simpl. intros H.
  apply andb_true_iff in H as [H _].
  induction vs as [|[z [j h|v]] vs IH]; simpl in *; [reflexivity| |].
  - apply andb_true_iff in H as [Hj H]. apply Nat.ltb_lt in Hj.
    rewrite (IH H). rewrite orb_false_r. apply Nat.eqb_neq; lia.
  - apply IH, H.
Qed.

Lemma wf_no_fins (w : world) :
  wf w = true -> fins (next_iid w) (log w) = [].
Proof.
  destruct w as [vs n l]; unfold wf; simpl. intros H.
  apply andb_true_iff in H as [_ H].
  induction l as [|[j v|v] l IH]; simpl in *; [reflexivity| |].
  - apply andb_true_iff in H as [Hj H]. apply Nat.ltb_lt in Hj.
    replace (Nat.eqb j n) with false by (symmetry; apply Nat.eqb_neq; lia).
    apply IH, H.
  - apply IH, H.
Qed.


(** Borrowing a helper bound at the head of the scope keeps it there, with
    the same instance number; writes through [inner_mut] only drop the
    overwritten payloads. *)
Lemma run_borrows (x i : nat) (h : IntoInnerHelper) (rest : list (nat * var))
  (n : nat) (l : list event) (bs : list op) (w' : world) :
  forallb (is_borrow_of x) bs = true ->
  run (mkWorld ((x, VCell i h) :: rest) n l) bs = Some w' ->
  exists h' ds, w' = mkWorld ((x, VCell i h') :: rest) n (l ++ map PayloadDropped ds)
                /\ (bs = [] -> h' = h).
Proof.
  revert h l; induction bs as [|o bs IH]; intros h l Hb Hr; simpl in Hr.
  - injection Hr as <-. exists h, []. rewrite app_nil_r. auto.
  - simpl in Hb. apply andb_true_iff in Hb as [Ho Hb].
    destruct o as [z p|z|z q|z y|z|z]; try discriminate; simpl in Ho;
      apply Nat.eqb_eq in Ho; subst z; unfold step in Hr; simpl in Hr;
      rewrite ?Nat.eqb_refl in Hr.
    + destruct (IH h l Hb Hr) as (h' & ds & E & _). exists h', ds.
      split; [exact E|discriminate].
    + destruct (IH _ _ Hb Hr) as (h' & ds & E & _).
      exists h', (inner h :: ds). split; [|discriminate].
      rewrite E, <- app_assoc. reflexivity.
Qed.

(** The life of one helper: constructed, borrowed any number of times, then
    either dropped or consumed by [into_inner]; whatever the program does
    afterwards, the calls of [D::drop] for this instance over the whole
    run are the one call of the drop path, or none. *)
Lemma new_borrows_terminal (w w' : world) (x : nat) (p : T)
  (bs : list op) (t : op) (post : list op) :
  wf w = true -> forallb (is_borrow_of x) bs = true -> is_terminal_of x t = true ->
  run w (ONew x p :: bs ++ t :: post) = Some w' ->
  exists h', fins (next_iid w) (log (finish w')) =
             (if is_drop t then [Finalized (next_iid w) (inner h')] else [])
             /\ (bs = [] -> h' = new p).
Proof.
  intros Hwf Hb Ht Hr. pose proof (wf_not_live w Hwf) as Hl.
  pose proof (wf_no_fins w Hwf) as Hf.
  destruct w as [vs n l]; simpl in Hl, Hf |- *.
  cbn [run] in Hr. unfold step at 1 in Hr. unfold is_unbound at 1 in Hr.
  simpl in Hr. destruct (lookup x vs); [discriminate|].
  rewrite run_app in Hr.
  destruct (run _ bs) as [w2|] eqn:R2; [|discriminate].
  destruct (run_borrows _ _ _ _ _ _ _ _ Hb R2) as (h' & ds & -> & Hnil).
  exists h'. split; [|exact Hnil].
  cbn [run] in Hr. destruct (step _ t) as [w3|] eqn:S3; [|discriminate].
  assert (fins n (log w3) = (if is_drop t then [Finalized n (inner h')] else [])
          /\ live n (vars w3) = false /\ n < next_iid w3) as (F3 & L3 & N3).
  { unfold step in S3.
    destruct t as [z q|z|z q|z y|z|z]; try discriminate; simpl in Ht;
      apply Nat.eqb_eq in Ht; subst z;
      cbn [lookup vars next_iid log is_unbound fst snd] in S3;
      rewrite Nat.eqb_refl in S3.
    - unfold is_unbound in S3; cbn [lookup vars] in S3.
      destruct (Nat.eqb x y); [cbv beta iota in S3; discriminate|].
      destruct (lookup y vs); [cbv beta iota in S3; discriminate|].
      cbv beta iota in S3.
      rewrite into_inner_returns in S3. injection S3 as <-. simpl.
      rewrite Nat.eqb_refl.
      rewrite !fins_app, Hf, fins_payload_drops. simpl.
      refine (conj eq_refl (conj Hl _)). lia.
    - injection S3 as <-. simpl. rewrite Nat.eqb_refl.
      rewrite !fins_app, Hf, fins_payload_drops, fins_drop_helper, Nat.eqb_refl.
      refine (conj eq_refl (conj Hl _)). lia. }
  destruct (run_dead n post w3 w' L3 N3 Hr) as [F L].
  pose proof (finish_dead n w' L) as FD.
  cbn [finish log] in FD |- *. rewrite FD. congruence.
Qed.


(** *** Counting calls of [D::drop] *)

Lemma nfin_app (l1 l2 : list event) : nfin (l1 ++ l2) = nfin l1 + nfin l2.
Proof. unfold nfin; rewrite filter_app; apply length_app. Qed.

Lemma nfin_payload_drops (l : list T) : nfin (map PayloadDropped l) = 0.
Proof. induction l; simpl; auto. Qed.

Lemma nfin_drop_helper (i : nat) (h : IntoInnerHelper) :
  nfin (drop_in_place_helper i h) = 1.
Proof.
  unfold drop_in_place_helper, IntoInnerHelper_Drop_drop, DetachedDrop_drop.
  rewrite !nfin_app. change (nfin (Finalized i (ptr_read (helper_inner h)) ::
    map PayloadDropped (D_drop_body (ptr_read (helper_inner h))))) with
    (1 + nfin (map PayloadDropped (D_drop_body (ptr_read (helper_inner h))))).
  rewrite nfin_payload_drops. reflexivity.
Qed.

Lemma ncells_remove_cell (x i : nat) (h : IntoInnerHelper) (vs : list (nat * var)) :
  lookup x vs = Some (VCell i h) -> S (ncells (remove_var x vs)) = ncells vs.
Proof.
  unfold ncells; induction vs as [|[z u] vs IH]; simpl; [discriminate|].
  destruct (Nat.eqb z x).
  - intros [= ->]. reflexivity.
  - intros H. destruct u; simpl; rewrite <- (IH H); reflexivity.
Qed.

Lemma ncells_remove_val (x : nat) (v : T) (vs : list (nat * var)) :
  lookup x vs = Some (VVal v) -> ncells (remove_var x vs) = ncells vs.
Proof.
  unfold ncells; induction vs as [|[z u] vs IH]; simpl; [discriminate|].
  destruct (Nat.eqb z x).
  - intros [= ->]. reflexivity.
  - intros H. destruct u; simpl; rewrite (IH H); reflexivity.
Qed.

Lemma ncells_update (x i j : nat) (h h' : IntoInnerHelper) (vs : list (nat * var)) :
  lookup x vs = Some (VCell i h) -> ncells (update_var x (VCell j h') vs) = ncells vs.
Proof.
  unfold ncells; induction vs as [|[z u] vs IH]; simpl; [discriminate|].
  destruct (Nat.eqb z x).
  - intros [= ->]. reflexivity.
  - intros H. destruct u; simpl; rewrite (IH H); reflexivity.
Qed.

Lemma step_count (w w' : world) (o : op) :
  step w o = Some w' ->
  nfin (log w') + ncells (vars w') + count_into [o] =
  nfin (log w) + ncells (vars w) + count_new [o].
Proof.
  intros Hs. unfold step in Hs.
  destruct o as [x p|x|x q|x y|x|y]; cbv beta iota in Hs.
  - destruct (is_unbound x w); [|discriminate]. injection Hs as <-.
    cbn. unfold ncells, nfin; simpl. lia.
  - destruct (lookup x (vars w)) as [[j h|v]|]; try discriminate.
    injection Hs as <-; reflexivity.
  - destruct (lookup x (vars w)) as [[j h|v]|] eqn:E; try discriminate.
    injection Hs as <-. cbn [log vars count_into count_new filter length].
    rewrite nfin_app, (ncells_update _ _ _ _ _ _ E). cbn. lia.
  - destruct (lookup x (vars w)) as [[j h|v]|] eqn:E; try discriminate.
    destruct (is_unbound y w); [|discriminate].
    rewrite into_inner_returns in Hs. injection Hs as <-.
    cbn [log vars count_into count_new filter length].
    rewrite nfin_app. unfold ncells at 1; simpl. fold (ncells (remove_var x (vars w))).
    rewrite <- (ncells_remove_cell _ _ _ _ E). cbn. lia.
  - destruct (lookup x (vars w)) as [[j h|v]|] eqn:E; try discriminate.
    injection Hs as <-. cbn [log vars count_into count_new filter length].
    rewrite nfin_app, nfin_drop_helper, <- (ncells_remove_cell _ _ _ _ E). lia.
  - destruct (lookup y (vars w)) as [[j h|v]|] eqn:E; try discriminate.
    injection Hs as <-. cbn [log vars count_into count_new filter length].
    rewrite nfin_app, (ncells_remove_val _ _ _ E). cbn. lia.
Qed.

Lemma count_new_cons (o : op) (prog : list op) :
  count_new (o :: prog) = count_new [o] + count_new prog.
Proof. destruct o; reflexivity. Qed.

Lemma count_into_cons (o : op) (prog : list op) :
  count_into (o :: prog) = count_into [o] + count_into prog.
Proof. destruct o; reflexivity. Qed.

Lemma run_count (prog : list op) (w w' : world) :
  run w prog = Some w' ->
  nfin (log w') + ncells (vars w') + count_into prog =
  nfin (log w) + ncells (vars w) + count_new prog.
Proof.
  revert w; induction prog as [|o prog IH]; intros w Hr; simpl in Hr.
  - injection Hr as <-. reflexivity.
  - destruct (step w o) as [w1|] eqn:S; [|discriminate].
    pose proof (step_count _ _ _ S) as C1. pose proof (IH _ Hr) as C2.
    rewrite count_new_cons, count_into_cons. lia.
Qed.

Lemma finish_count (w : world) :
  nfin (log (finish w)) = nfin (log w) + ncells (vars w).
Proof.
  destruct w as [vs n l]; cbn [finish log vars]. rewrite nfin_app. f_equal.
  unfold ncells; induction vs as [|[z [j h|v]] vs IH]; [reflexivity| |].
  - cbn [flat_map]. rewrite nfin_app. unfold drop_var at 1; cbn [snd].
    rewrite nfin_drop_helper, IH. reflexivity.
  - cbn [flat_map]. rewrite nfin_app, IH. reflexivity.
Qed.


(** *** Conservation of payloads *)

Lemma dropped_app (l1 l2 : list event) : dropped (l1 ++ l2) = dropped l1 ++ dropped l2.
Proof. unfold dropped; apply flat_map_app. Qed.

Lemma dropped_payload_drops (l : list T) : dropped (map PayloadDropped l) = l.
Proof. induction l as [|v l IH]; simpl; [reflexivity|]. f_equal; exact IH. Qed.

(** The helper's own drop drops nothing beyond what [D::drop] drops. *)
Lemma dropped_drop_helper (i : nat) (h : IntoInnerHelper) :
  dropped (drop_in_place_helper i h) = D_drop_body (inner h).
Proof.
  unfold drop_in_place_helper, IntoInnerHelper_Drop_drop, DetachedDrop_drop.
  rewrite !dropped_app. simpl. rewrite dropped_payload_drops, !app_nil_r.
  reflexivity.
Qed.

Lemma payloads_remove (x : nat) (u : var) (vs : list (nat * var)) :
  lookup x vs = Some u ->
  Permutation (payloads vs) (payload_of u :: payloads (remove_var x vs)).
Proof.
  induction vs as [|[z u'] vs IH]; simpl; [discriminate|].
  destruct (Nat.eqb z x).
  - intros [= ->]. reflexivity.
  - intros H. simpl. rewrite (IH H). apply perm_swap.
Qed.

Lemma payloads_update (x : nat) (u u' : var) (vs : list (nat * var)) :
  lookup x vs = Some u ->
  Permutation (payload_of u' :: payloads vs)
              (payload_of u :: payloads (update_var x u' vs)).
Proof.
  induction vs as [|[z v] vs IH]; simpl; [discriminate|].
  destruct (Nat.eqb z x).
  - intros [= ->]. simpl. apply perm_swap.
  - intros H. simpl. rewrite perm_swap, (IH H). apply perm_swap.
Qed.

Lemma lookup_update (x : nat) (u u' : var) (vs : list (nat * var)) :
  lookup x vs = Some u -> lookup x (update_var x u' vs) = Some u'.
Proof.
  induction vs as [|[z v] vs IH]; simpl; [discriminate|].
  destruct (Nat.eqb z x) eqn:Z; simpl; rewrite Z; auto.
Qed.

Section Consuming.

(** [D::drop] drops its argument, as the tests' [Dummy] impl does. *)
Hypothesis D_drop_consumes : forall v, D_drop_body v = [v].

Lemma step_perm (w w' : world) (o : op) :
  step w o = Some w' ->
  Permutation (dropped (log w') ++ payloads (vars w'))
              (dropped (log w) ++ payloads (vars w) ++ introduced [o]).
Proof.
  intros Hs. unfold step in Hs.
  destruct o as [x p|x|x q|x y|x|y]; cbv beta iota in Hs.
  - destruct (is_unbound x w); [|discriminate]. injection Hs as <-.
    cbn [log vars introduced flat_map payloads map snd payload_of].
    apply Permutation_app_head. rewrite app_nil_r. apply Permutation_cons_append.
  - destruct (lookup x (vars w)) as [[j h|v]|]; try discriminate.
    injection Hs as <-. simpl. rewrite !app_nil_r. reflexivity.
  - destruct (lookup x (vars w)) as [[j h|v]|] eqn:E; try discriminate.
    injection Hs as <-. cbn [log vars introduced flat_map].
    rewrite dropped_app, <- app_assoc. apply Permutation_app_head.
    simpl. rewrite ?app_nil_r.
    pose proof (payloads_update _ _ (VCell j (snd (inner_mut h) q)) _ E) as P.
    simpl in P. etransitivity; [symmetry; exact P|apply Permutation_cons_append].
  - destruct (lookup x (vars w)) as [[j h|v]|] eqn:E; try discriminate.
    destruct (is_unbound y w); [|discriminate].
    rewrite into_inner_returns in Hs. injection Hs as <-.
    cbn [log vars introduced flat_map payloads map snd payload_of].
    rewrite !app_nil_r. apply Permutation_app_head.
    pose proof (payloads_remove _ _ _ E) as P. simpl in P. rewrite P. reflexivity.
  - destruct (lookup x (vars w)) as [[j h|v]|] eqn:E; try discriminate.
    injection Hs as <-. cbn [log vars introduced flat_map].
    rewrite dropped_app, dropped_drop_helper, D_drop_consumes, app_nil_r, <- app_assoc.
    apply Permutation_app_head.
    pose proof (payloads_remove _ _ _ E) as P. simpl in P. rewrite P. reflexivity.
  - destruct (lookup y (vars w)) as [[j h|v]|] eqn:E; try discriminate.
    injection Hs as <-. cbn [log vars introduced flat_map].
    rewrite dropped_app, app_nil_r, <- app_assoc. apply Permutation_app_head.
    pose proof (payloads_remove _ _ _ E) as P. simpl in P. rewrite P. reflexivity.
Qed.

Lemma introduced_cons (o : op) (prog : list op) :
  introduced (o :: prog) = introduced [o] ++ introduced prog.
Proof. destruct o; reflexivity. Qed.

Lemma run_perm (prog : list op) (w w' : world) :
  run w prog = Some w' ->
  Permutation (dropped (log w') ++ payloads (vars w'))
              (dropped (log w) ++ payloads (vars w) ++ introduced prog).
Proof.
  revert w; induction prog as [|o prog IH]; intros w Hr; simpl in Hr.
  - injection Hr as <-. simpl. rewrite app_nil_r. reflexivity.
  - destruct (step w o) as [w1|] eqn:S; [|discriminate].
    rewrite (introduced_cons o prog), (IH _ Hr), app_assoc, (step_perm _ _ _ S).
    rewrite <- !app_assoc. reflexivity.
Qed.

Lemma finish_dropped (w : world) :
  dropped (log (finish w)) = dropped (log w) ++ payloads (vars w).
Proof.
  destruct w as [vs n l]; cbn [finish log vars]. rewrite dropped_app. f_equal.
  induction vs as [|[z [j h|v]] vs IH]; [reflexivity| |].
  - cbn [flat_map]. rewrite dropped_app. unfold drop_var at 1; cbn [snd].
    rewrite dropped_drop_helper, D_drop_consumes, IH. reflexivity.
  - cbn [flat_map]. rewrite dropped_app, IH. reflexivity.
Qed.

End Consuming.



(** *** Per-instance budget of [D::drop] calls *)

Lemma cnt_remove_cell (i x j : nat) (h : IntoInnerHelper) (vs : list (nat * var)) :
  lookup x vs = Some (VCell j h) ->
  cnt_cells i vs = (if Nat.eqb j i then 1 else 0) + cnt_cells i (remove_var x vs).
Proof.
  unfold cnt_cells; induction vs as [|[z u] vs IH]; simpl; [discriminate|].
  destruct (Nat.eqb z x).
  - intros [= ->]. simpl. destruct (Nat.eqb j i); reflexivity.
  - intros H. specialize (IH H).
    destruct (Nat.eqb j i); destruct u as [k g|v]; simpl;
      try destruct (Nat.eqb k i); simpl; lia.
Qed.

Lemma cnt_remove_val (i x : nat) (v : T) (vs : list (nat * var)) :
  lookup x vs = Some (VVal v) -> cnt_cells i (remove_var x vs) = cnt_cells i vs.
Proof.
  unfold cnt_cells; induction vs as [|[z u] vs IH]; simpl; [discriminate|].
  destruct (Nat.eqb z x).
  - intros [= ->]. reflexivity.
  - intros H. specialize (IH H).
    destruct u as [k g|w]; simpl; try destruct (Nat.eqb k i); simpl; lia.
Qed.

Lemma cnt_update (i x j : nat) (h h' : IntoInnerHelper) (vs : list (nat * var)) :
  lookup x vs = Some (VCell j h) ->
  cnt_cells i (update_var x (VCell j h') vs) = cnt_cells i vs.
Proof.
  unfold cnt_cells; induction vs as [|[z u] vs IH]; simpl; [discriminate|].
  destruct (Nat.eqb z x).
  - intros [= ->]. simpl. destruct (Nat.eqb j i); reflexivity.
  - intros H. specialize (IH H).
    destruct u as [k g|w]; simpl; try destruct (Nat.eqb k i); simpl; lia.
Qed.

Lemma step_fin_budget (w w' : world) (o : op) (i : nat) :
  step w o = Some w' ->
  next_iid w' = next_iid w + count_new [o] /\
  length (fins i (log w')) + cnt_cells i (vars w') <=
  length (fins i (log w)) + cnt_cells i (vars w)
  + (if Nat.eqb (next_iid w) i then count_new [o] else 0).
Proof.
  intros Hs. unfold step in Hs.
  destruct o as [x p|x|x q|x y|x|y]; cbv beta iota in Hs.
  - destruct (is_unbound x w); [|discriminate]. injection Hs as <-.
    cbn [next_iid vars log count_new filter length]. split; [lia|].
    unfold cnt_cells; simpl. destruct (Nat.eqb (next_iid w) i); simpl; lia.
  - destruct (lookup x (vars w)) as [[j h|v]|]; try discriminate.
    injection Hs as <-. cbn. split; lia.
  - destruct (lookup x (vars w)) as [[j h|v]|] eqn:E; try discriminate.
    injection Hs as <-. cbn [next_iid vars log count_new filter length].
    rewrite fins_app, length_app, (cnt_update _ _ _ _ _ _ E). simpl. split; lia.
  - destruct (lookup x (vars w)) as [[j h|v]|] eqn:E; try discriminate.
    destruct (is_unbound y w); [|discriminate].
    rewrite into_inner_returns in Hs. injection Hs as <-.
    cbn [next_iid vars log count_new filter length]. split; [lia|].
    rewrite app_nil_r, (cnt_remove_cell i _ _ _ _ E).
    unfold cnt_cells at 1; simpl. fold (cnt_cells i (remove_var x (vars w))). lia.
  - destruct (lookup x (vars w)) as [[j h|v]|] eqn:E; try discriminate.
    injection Hs as <-. cbn [next_iid vars log count_new filter length].
    split; [lia|].
    rewrite fins_app, length_app, fins_drop_helper, (cnt_remove_cell i _ _ _ _ E).
    destruct (Nat.eqb j i); simpl; lia.
  - destruct (lookup y (vars w)) as [[j h|v]|] eqn:E; try discriminate.
    injection Hs as <-. cbn [next_iid vars log count_new filter length].
    rewrite fins_app, length_app, (cnt_remove_val _ _ _ _ E). simpl. split; lia.
Qed.

Lemma run_fin_budget (prog : list op) (w w' : world) :
  run w prog = Some w' ->
  (forall i, length (fins i (log w)) + cnt_cells i (vars w) <= 1 /\
             (next_iid w <= i -> length (fins i (log w)) + cnt_cells i (vars w) = 0)) ->
  (forall i, length (fins i (log w')) + cnt_cells i (vars w') <= 1 /\
             (next_iid w' <= i -> length (fins i (log w')) + cnt_cells i (vars w') = 0)).
Proof.
  revert w; induction prog as [|o prog IH]; intros w Hr Hinv; simpl in Hr.
  - injection Hr as <-. exact Hinv.
  - destruct (step w o) as [w1|] eqn:S; [|discriminate].
    apply (IH w1 Hr). intros i.
    destruct (step_fin_budget w w1 o i S) as [N B].
    destruct (Hinv i) as [H1 H2].
    destruct (Nat.eqb (next_iid w) i) eqn:E; rewrite ?E in B.
    + apply Nat.eqb_eq in E. rewrite E in H2.
      specialize (H2 (Nat.le_refl _)).
      assert (count_new [o] <= 1) by (destruct o; unfold count_new; simpl; lia).
      split; [lia|]. intros Hle.
      destruct o; simpl in N, B |- *; [lia|..]; lia.
    + split; [lia|]. intros Hle.
      assert (next_iid w <= i) as Hw by lia. specialize (H2 Hw). lia.
Qed.

Lemma finish_fins_length (i : nat) (w : world) :
  length (fins i (log (finish w))) = length (fins i (log w)) + cnt_cells i (vars w).
Proof.
  destruct w as [vs n l]; cbn [finish log vars].
  rewrite fins_app, length_app. f_equal.
  unfold cnt_cells; induction vs as [|[z [j h|v]] vs IH]; [reflexivity| |].
  - cbn [flat_map]. rewrite fins_app, length_app. unfold drop_var at 1; cbn [snd].
    rewrite fins_drop_helper, IH. simpl. destruct (Nat.eqb j i); reflexivity.
  - cbn [flat_map]. simpl. exact IH.
Qed.

(** *** Conservation of payloads, for any [D::drop] *)

Lemma handed_app (l1 l2 : list event) : handed (l1 ++ l2) = handed l1 ++ handed l2.
Proof. unfold handed; apply flat_map_app. Qed.

Lemma handed_payload_drops (l : list T) : handed (map PayloadDropped l) = [].
Proof. induction l; simpl; auto. Qed.

Lemma handed_drop_helper (i : nat) (h : IntoInnerHelper) :
  handed (drop_in_place_helper i h) = [inner h].
Proof.
  unfold drop_in_place_helper, IntoInnerHelper_Drop_drop, DetachedDrop_drop.
  rewrite !handed_app. simpl. rewrite handed_payload_drops. reflexivity.
Qed.

Lemma handed_one_drop (l : list event) (v : T) :
  handed (l ++ [PayloadDropped v]) = handed l.
Proof. rewrite handed_app. apply app_nil_r. Qed.

Lemma dropped_one_drop (l : list event) (v : T) :
  dropped (l ++ [PayloadDropped v]) = dropped l ++ [v].
Proof. rewrite dropped_app. reflexivity. Qed.

Lemma perm_replace_one (D0 H0 P0 U I0 F0 : list T) (a q : T) :
  Permutation (q :: P0) (a :: U) ->
  Permutation (D0 ++ H0 ++ P0) (I0 ++ F0) ->
  Permutation ((D0 ++ [a]) ++ H0 ++ U) (I0 ++ ([q] ++ []) ++ F0).
Proof.
  intros P J. rewrite !app_nil_r, <- !app_assoc. simpl.
  transitivity (D0 ++ H0 ++ a :: U).
  - apply Permutation_app_head. apply Permutation_middle.
  - rewrite <- P, app_assoc, <- Permutation_middle, <- app_assoc, J.
    apply Permutation_middle.
Qed.

Lemma perm_finalize_one (D0 H0 P0 U I0 F0 Dv : list T) (v : T) :
  Permutation P0 (v :: U) ->
  Permutation (D0 ++ H0 ++ P0) (I0 ++ F0) ->
  Permutation ((D0 ++ Dv) ++ (H0 ++ [v]) ++ U) (I0 ++ [] ++ F0 ++ (Dv ++ [])).
Proof.
  intros P J. rewrite !app_nil_r, <- !app_assoc. simpl.
  transitivity (Dv ++ D0 ++ H0 ++ P0).
  - rewrite P, Permutation_app_swap_app.
    apply Permutation_app_head, Permutation_app_head, Permutation_app_head.
    reflexivity.
  - rewrite J, (app_assoc I0 F0 Dv). apply Permutation_app_comm.
Qed.

Lemma perm_drop_one (D0 H0 P0 U I0 F0 : list T) (v : T) :
  Permutation P0 (v :: U) ->
  Permutation (D0 ++ H0 ++ P0) (I0 ++ F0) ->
  Permutation ((D0 ++ [v]) ++ H0 ++ U) (I0 ++ [] ++ F0).
Proof.
  intros P J. rewrite <- !app_assoc. simpl. rewrite <- J, P.
  apply Permutation_app_head. apply Permutation_middle.
Qed.

Lemma step_conserve (I0 : list T) (w w' : world) (o : op) :
  step w o = Some w' ->
  Permutation (dropped (log w) ++ handed (log w) ++ payloads (vars w))
              (I0 ++ flat_map D_drop_body (handed (log w))) ->
  Permutation (dropped (log w') ++ handed (log w') ++ payloads (vars w'))
              (I0 ++ introduced [o] ++ flat_map D_drop_body (handed (log w'))).
Proof.
  intros Hs J. unfold step in Hs.
  destruct o as [x p|x|x q|x y|x|y]; cbv beta iota in Hs.
  - destruct (is_unbound x w); [|discriminate]. injection Hs as <-.
    cbn [log vars introduced flat_map payloads map snd payload_of].
    rewrite app_nil_r.
    rewrite <- Permutation_middle, <- Permutation_middle, J.
    apply Permutation_middle.
  - destruct (lookup x (vars w)) as [[j h|v]|]; try discriminate.
    injection Hs as <-. exact J.
  - destruct (lookup x (vars w)) as [[j h|v]|] eqn:E; try discriminate.
    injection Hs as <-. cbn [log vars].
    rewrite handed_one_drop, dropped_one_drop.
    exact (perm_replace_one _ _ _ _ _ _ (inner h) q
             (payloads_update _ _ (VCell j (snd (inner_mut h) q)) _ E) J).
  - destruct (lookup x (vars w)) as [[j h|v]|] eqn:E; try discriminate.
    destruct (is_unbound y w); [|discriminate].
    rewrite into_inner_returns in Hs. injection Hs as <-.
    cbn [log vars introduced flat_map payloads map snd payload_of].
    rewrite !app_nil_r. simpl.
    pose proof (payloads_remove _ _ _ E) as P. simpl in P.
    rewrite <- P. exact J.
  - destruct (lookup x (vars w)) as [[j h|v]|] eqn:E; try discriminate.
    injection Hs as <-. cbn [log vars].
    rewrite dropped_app, handed_app, dropped_drop_helper, handed_drop_helper,
      flat_map_app.
    exact (perm_finalize_one _ _ _ _ _ _ _ (inner h) (payloads_remove _ _ _ E) J).
  - destruct (lookup y (vars w)) as [[j h|v]|] eqn:E; try discriminate.
    injection Hs as <-. cbn [log vars].
    rewrite handed_one_drop, dropped_one_drop.
    exact (perm_drop_one _ _ _ _ _ _ v (payloads_remove _ _ _ E) J).
Qed.

Lemma run_conserve (I0 : list T) (prog : list op) (w w' : world) :
  run w prog = Some w' ->
  Permutation (dropped (log w) ++ handed (log w) ++ payloads (vars w))
              (I0 ++ flat_map D_drop_body (handed (log w))) ->
  Permutation (dropped (log w') ++ handed (log w') ++ payloads (vars w'))
              (I0 ++ introduced prog ++ flat_map D_drop_body (handed (log w'))).
Proof.
  revert I0 w; induction prog as [|o prog IH]; intros I0 w Hr J; simpl in Hr.
  - injection Hr as <-. exact J.
  - destruct (step w o) as [w1|] eqn:S; [|discriminate].
    pose proof (step_conserve I0 w w1 o S J) as J1.
    rewrite (app_assoc I0) in J1.
    pose proof (IH _ _ Hr J1) as J2.
    rewrite introduced_cons, <- app_assoc. rewrite <- (app_assoc I0) in J2. exact J2.
Qed.

Lemma perm_cell_step (Dr Hr P FD Dh : list T) (a : T) :
  Permutation (Dr ++ Hr) (P ++ FD) ->
  Permutation ((Dh ++ Dr) ++ [a] ++ Hr) ((a :: P) ++ (Dh ++ []) ++ FD).
Proof.
  intros J. rewrite app_nil_r. cbn [app].
  rewrite <- (Permutation_middle (Dh ++ Dr) Hr a). apply perm_skip.
  rewrite <- app_assoc, (Permutation_app_swap_app P).
  apply Permutation_app_head. exact J.
Qed.

Lemma vars_conserve (vs : list (nat * var)) :
  Permutation (dropped (flat_map drop_var vs) ++ handed (flat_map drop_var vs))
              (payloads vs ++ flat_map D_drop_body (handed (flat_map drop_var vs))).
Proof.
  induction vs as [|[z u] vs IH]; [reflexivity|].
  change (flat_map drop_var ((z, u) :: vs))
    with (drop_var (z, u) ++ flat_map drop_var vs).
  change (payloads ((z, u) :: vs)) with (payload_of u :: payloads vs).
  rewrite dropped_app, handed_app, flat_map_app.
  destruct u as [j h|v].
  - change (drop_var (z, VCell j h)) with (drop_in_place_helper j h).
    rewrite dropped_drop_helper, handed_drop_helper.
    change (payload_of (VCell j h)) with (inner h).
    change (flat_map D_drop_body [inner h]) with (D_drop_body (inner h) ++ []).
    apply perm_cell_step. exact IH.
  - change (drop_var (z, VVal v)) with [PayloadDropped v].
    change (dropped [PayloadDropped v]) with [v].
    change (handed [PayloadDropped v]) with (@nil T).
    change (payload_of (VVal v)) with v.
    cbn [app flat_map]. apply perm_skip. exact IH.
Qed.

Lemma finish_conserve (w : world) :
  Permutation (dropped (log (finish w)) ++ handed (log (finish w)))
              (dropped (log w) ++ handed (log w) ++ payloads (vars w)
               ++ flat_map D_drop_body (handed (flat_map drop_var (vars w)))).
Proof.
  destruct w as [vs n l]; cbn [finish log vars].
  rewrite dropped_app, handed_app, <- !app_assoc. apply Permutation_app_head.
  rewrite Permutation_app_swap_app. apply Permutation_app_head.
  apply vars_conserve.
Qed.

Lemma run_news (bs : list (nat * T)) (w w' : world) :
  run w (map (fun b => ONew (fst b) (snd b)) bs) = Some w' ->
  log w' = log w /\
  handed (flat_map drop_var (vars w')) =
    rev (map snd bs) ++ handed (flat_map drop_var (vars w)).
Proof.
  revert w; induction bs as [|[x p] bs IH]; intros w Hr.
  - injection Hr as <-. split; reflexivity.
  - cbn [map fst snd run] in Hr. unfold step in Hr.
    destruct (is_unbound x w); [|discriminate].
    destruct (IH _ Hr) as [L Hd]. cbn [log vars] in L, Hd.
    split; [exact L|]. rewrite Hd. cbn [flat_map].
    rewrite handed_app. change (drop_var (x, VCell (next_iid w) (new p)))
      with (drop_in_place_helper (next_iid w) (new p)).
    rewrite handed_drop_helper. cbn [map rev snd].
    rewrite <- app_assoc. reflexivity.
Qed.

(** ** The claims *)

(** C1. A helper constructed with [p] and dropped without [into_inner]
    calls [D::drop] exactly once on its behalf, with [p]; whatever the
    program does afterwards, up to the end of its scope, no second call
    happens. *)
Theorem drop_without_into_inner_finalizes_once (w w' : world) (x : nat) (p : T)
  (post : list op) :
  wf w = true ->
  run w (ONew x p :: ODropCell x :: post) = Some w' ->
  fins (next_iid w) (log (finish w')) = [Finalized (next_iid w) p].
Proof.
  intros Hwf Hr.
  destruct (new_borrows_terminal w w' x p [] (ODropCell x) post Hwf eq_refl
              (Nat.eqb_refl x) Hr) as (h' & F & E).
  rewrite F, (E eq_refl). reflexivity.
Qed.

(** C2. A helper constructed with [p] and consumed by [into_inner] never
    has [D::drop] called on its behalf, also when the returned payload is
    dropped later or at the end of the scope. *)
Theorem into_inner_never_finalizes (w w' : world) (x y : nat) (p : T)
  (post : list op) :
  wf w = true ->
  run w (ONew x p :: OIntoInner x y :: post) = Some w' ->
  fins (next_iid w) (log (finish w')) = [].
Proof.
  intros Hwf Hr.
  destruct (new_borrows_terminal w w' x p [] (OIntoInner x y) post Hwf eq_refl
              (Nat.eqb_refl x) Hr) as (h' & F & _).
  exact F.
Qed.

(** C3. [IntoInnerHelper::new(p).into_inner()] returns [p] and has no
    other effect. *)
Theorem into_inner_new_roundtrip (i : nat) (p : T) :
  into_inner i (new p) = Returned p [].
Proof. reflexivity. Qed.

(** C4. In the body of [into_inner], no step that can fail lies in the
    window where both [self] and the copy read out of it are live, and
    for every point at which a failure could be injected the body
    returns the payload with [self] forgotten: neither [Drop::drop] nor
    the payload's destructor runs. *)
Theorem into_inner_disarms_without_failure_window (i : nat) (h : IntoInnerHelper) :
  window_safe into_inner_body [LSelf h] = true /\
  (forall pa, run_body i pa into_inner_body [LSelf h] None = Returned (inner h) []).
Proof.
  split.
  - destruct h as [[v] ph]; reflexivity.
  - intros pa; apply run_body_into_inner.
Qed.

(** C5. Over any type-correct program, the calls of [D::drop] are exactly
    as many as the helpers constructed and not consumed by [into_inner],
    whatever the order of the drops. *)
Theorem finalizer_calls_count_undropped_instances (prog : list op) (w : world) :
  run empty_world prog = Some w ->
  nfin (log (finish w)) = count_new prog - count_into prog
  /\ count_into prog <= count_new prog.
Proof.
  intros Hr. pose proof (run_count prog empty_world w Hr) as C.
  rewrite finish_count. cbn in C. lia.
Qed.

(** C6. Borrows through [inner] and [inner_mut] between construction and
    the terminal operation do not change how often [D::drop] is called on
    behalf of the helper. *)
Theorem borrows_preserve_finalizer_calls (w w1 w2 : world) (x : nat) (p : T)
  (bs : list op) (t : op) (post : list op) :
  wf w = true -> forallb (is_borrow_of x) bs = true -> is_terminal_of x t = true ->
  run w (ONew x p :: bs ++ t :: post) = Some w1 ->
  run w (ONew x p :: t :: post) = Some w2 ->
  length (fins (next_iid w) (log (finish w1))) =
  length (fins (next_iid w) (log (finish w2))).
Proof.
  intros Hwf Hb Ht H1 H2.
  destruct (new_borrows_terminal w w1 x p bs t post Hwf Hb Ht H1) as (h1 & F1 & _).
  destruct (new_borrows_terminal w w2 x p [] t post Hwf eq_refl Ht H2) as (h2 & F2 & _).
  rewrite F1, F2. destruct (is_drop t); reflexivity.
Qed.

(** C7. Every operation is total: a client step is refused only when the
    program does not type-check, and [into_inner] always returns. *)
Theorem operations_total :
  (forall (w : world) (o : op), step w o <> None <-> op_well_typed w o = true) /\
  (forall (i : nat) (h : IntoInnerHelper), exists v, into_inner i h = Returned v []).
Proof.
  split.
  - intros w o. unfold step, op_well_typed.
    destruct o as [x p|x|x q|x y|x|y].
    + destruct (is_unbound x w); split; congruence.
    + destruct (lookup x (vars w)) as [[j h|v]|]; split; congruence.
    + destruct (lookup x (vars w)) as [[j h|v]|]; try (split; congruence).
      destruct (inner_mut h); split; congruence.
    + destruct (lookup x (vars w)) as [[j h|v]|]; try (split; congruence).
      rewrite into_inner_returns. destruct (is_unbound y w); split; congruence.
    + destruct (lookup x (vars w)) as [[j h|v]|]; split; congruence.
    + destruct (lookup y (vars w)) as [[j h|v]|]; split; congruence.
  - intros i h. exists (inner h). apply into_inner_returns.
Qed.

(** C8. [new] stores the payload; [inner] and [inner_mut] give access to
    the stored payload itself; borrowing leaves the helper live, under the
    same instance. *)
Theorem new_inner_inner_mut_access_payload (p : T) (w : world) (x i : nat)
  (h : IntoInnerHelper) :
  lookup x (vars w) = Some (VCell i h) ->
  (inner (new p) = p /\ fst (inner_mut (new p)) = p) /\
  step w (OInner x) = Some w /\
  (forall q, exists w',
     step w (OInnerMut x q) = Some w' /\
     lookup x (vars w') = Some (VCell i (snd (inner_mut h) q)) /\
     inner (snd (inner_mut h) q) = q /\
     next_iid w' = next_iid w).
Proof.
  intros E. split; [split; reflexivity|]. split.
  - unfold step. rewrite E. reflexivity.
  - intros q. unfold step. rewrite E.
    eexists. split; [reflexivity|]. cbn [vars next_iid].
    split; [|split; reflexivity].
    apply (lookup_update _ _ _ _ E).
Qed.

(** C9. A payload written through [inner_mut] is what [into_inner]
    returns, and what [D::drop] receives on the drop path (the overwritten
    payload is dropped by the assignment). *)
Theorem inner_mut_write_reaches_terminal (w w1 w2 : world) (x y : nat) (p q : T) :
  run w [ONew x p; OInnerMut x q; OIntoInner x y] = Some w1 ->
  run w [ONew x p; OInnerMut x q; ODropCell x] = Some w2 ->
  lookup y (vars w1) = Some (VVal q) /\
  log w2 = log w ++ [PayloadDropped p] ++ DetachedDrop_drop (next_iid w) q.
Proof.
  intros H1 H2. destruct w as [vs n l].
  unfold run, step, is_unbound in H1, H2. cbn [lookup vars next_iid log] in H1, H2.
  destruct (lookup x vs); [discriminate|].
  simpl in H1, H2. rewrite ?Nat.eqb_refl in H1, H2. simpl in H1, H2.
  rewrite ?Nat.eqb_refl in H1, H2. simpl in H1, H2.
  split.
  - destruct (Nat.eqb x y); [discriminate|].
    destruct (lookup y vs); [discriminate|].
    injection H1 as <-. simpl. rewrite Nat.eqb_refl. reflexivity.
  - injection H2 as <-. cbn [log]. rewrite <- app_assoc.
    unfold drop_in_place_helper, IntoInnerHelper_Drop_drop. simpl.
    rewrite app_nil_r. reflexivity.
Qed.

(** C10. When [D::drop] drops its argument (as the tests' impl does), the
    payloads whose destructor runs over any type-correct program, up to
    the end of its scope, are exactly the payloads handed to it (each
    constructed payload and each payload written through [inner_mut]),
    each once: the helper neither drops nor duplicates nor leaks one. *)
Theorem payload_destructor_runs_once (prog : list op) (w : world) :
  (forall v, D_drop_body v = [v]) ->
  run empty_world prog = Some w ->
  Permutation (dropped (log (finish w))) (introduced prog).
Proof.
  intros Hc Hr. pose proof (run_perm Hc prog empty_world w Hr) as P.
  rewrite (finish_dropped Hc). exact P.
Qed.

(** ** Further properties *)

(** X3. Over any type-correct program, [Drop::drop] of the helper calls
    [D::drop] at most once for each helper instance, whatever [D::drop]
    does, up to the end of the scope. *)
Theorem drop_at_most_once_per_instance (prog : list op) (w : world) (i : nat) :
  run empty_world prog = Some w ->
  length (fins i (log (finish w))) <= 1.
Proof.
  intros Hr. rewrite finish_fins_length.
  refine (proj1 (run_fin_budget prog empty_world w Hr _ i)).
  intros j. cbn. lia.
Qed.

(** X4. For any [D::drop], over any type-correct program up to the end of
    its scope, the payloads whose destructor ran together with the
    payloads handed to [D::drop] are, as a multiset, the payloads
    constructed or written through [inner_mut] together with those that
    the [D::drop] calls dropped: the helper itself never drops, duplicates
    or leaks a payload, it only moves each one either out by [into_inner]
    or into [D::drop]. *)
Theorem payloads_conserved_any_finalizer (prog : list op) (w : world) :
  run empty_world prog = Some w ->
  Permutation (dropped (log (finish w)) ++ handed (log (finish w)))
              (introduced prog ++ flat_map D_drop_body (handed (log (finish w)))).
Proof.
  intros Hr.
  pose proof (run_conserve [] prog empty_world w Hr (Permutation_refl _)) as J.
  etransitivity; [apply finish_conserve|].
  change (log (finish w)) with (log w ++ flat_map drop_var (vars w)).
  rewrite handed_app, flat_map_app, !app_assoc.
  apply Permutation_app_tail. rewrite <- !app_assoc. exact J.
Qed.

(** X5. At the end of a scope that declares helpers only, [D::drop] is
    called with their payloads in reverse declaration order. *)
Theorem scope_end_finalizes_in_reverse_order (bs : list (nat * T)) (w : world) :
  run empty_world (map (fun b => ONew (fst b) (snd b)) bs) = Some w ->
  handed (log (finish w)) = rev (map snd bs).
Proof.
  intros Hr. destruct (run_news bs empty_world w Hr) as [L Hd].
  change (log (finish w)) with (log w ++ flat_map drop_var (vars w)).
  rewrite handed_app, L, Hd. cbn. apply app_nil_r.
Qed.

End Proofs.

(** ** The tests and the documentation example *)

(** X1. Test [drop_once]: the token moved into a new helper is not dropped
    while the helper lives, and is dropped exactly once when the helper
    is dropped. *)
Theorem test_drop_once_token (w w1 w2 : @world nat) (x tok : nat) :
  token_drops tok (log w) = 0 ->
  run Dummy_drop_body w [ONew x tok] = Some w1 ->
  run Dummy_drop_body w1 [ODropCell x] = Some w2 ->
  is_dropped tok (log w1) = false /\ token_drops tok (log w2) = 1.
Proof.
  intros H0 H1 H2. cbn [run] in H1. unfold step in H1.
  destruct (is_unbound x w); [|discriminate]. injection H1 as <-.
  cbn [run step lookup vars] in H2. rewrite Nat.eqb_refl in H2.
  injection H2 as <-. cbn [log]. unfold is_dropped, token_drops in *.
  rewrite H0. split; [reflexivity|].
  rewrite dropped_app. cbn. rewrite count_occ_app, H0. cbn.
  destruct (Nat.eq_dec tok tok); [reflexivity|contradiction].
Qed.

(** X2. Test [into_inner]: the token is not dropped by [new], nor by
    [into_inner], and is dropped exactly once when the returned value is
    dropped. *)
Theorem test_into_inner_token (w w1 w2 w3 : @world nat) (x y tok : nat) :
  token_drops tok (log w) = 0 ->
  run Dummy_drop_body w [ONew x tok] = Some w1 ->
  run Dummy_drop_body w1 [OIntoInner x y] = Some w2 ->
  run Dummy_drop_body w2 [ODropVal y] = Some w3 ->
  token_drops tok (log w1) = 0 /\ token_drops tok (log w2) = 0 /\
  token_drops tok (log w3) = 1.
Proof.
  intros H0 H1 H2 H3. cbn [run] in H1. unfold step in H1.
  destruct (is_unbound x w); [|discriminate]. injection H1 as <-.
  cbn [run step lookup vars] in H2. rewrite Nat.eqb_refl in H2.
  unfold is_unbound in H2. cbn [lookup vars] in H2.
  destruct (Nat.eqb x y); [discriminate|].
  destruct (lookup y (vars w)); [discriminate|].
  cbn in H2. injection H2 as <-.
  cbn [run step lookup vars] in H3. rewrite Nat.eqb_refl in H3.
  injection H3 as <-. cbn [log]. unfold token_drops in *.
  rewrite !app_nil_r, H0. split; [reflexivity|]. split; [reflexivity|].
  rewrite dropped_app. cbn. rewrite count_occ_app, H0. cbn.
  destruct (Nat.eq_dec tok tok); [reflexivity|contradiction].
Qed.

(** X6. The documentation example prints [NOT on drop: ] with the string
    taken out by [into_string], then, at the end of [main], [Dropping: ]
    with the other string, and nothing else: the helper consumed by
    [into_inner] never calls [PrintOnDropImpl::drop]. *)
Theorem doc_example_output (s1 s2 : string) :
  example_main s1 s2 =
  Some [append "NOT on drop: " s2; append "Dropping: " s1].
Proof. reflexivity. Qed.

(** ** Concrete runs, with the tests' [Dummy] impl *)

(** Scenario of the test [drop_once], with a payload [7]. *)
Example drop_once_run :
  option_map (fun w => log (finish Dummy_drop_body w))
    (run Dummy_drop_body empty_world [ONew 1 7]) =
  Some [Finalized 0 7; PayloadDropped 7].
Proof. reflexivity. Qed.

(** Scenario of the test [into_inner]: nothing is finalized, the payload is
    dropped once, when the returned value is dropped. *)
Example into_inner_run :
  option_map (fun w => log (finish Dummy_drop_body w))
    (run Dummy_drop_body empty_world [ONew 1 7; OIntoInner 1 2; ODropVal 2]) =
  Some [PayloadDropped 7].
Proof. reflexivity. Qed.

(** Three helpers, the second consumed by [into_inner]: [D::drop] is called
    for the first and the third only, each with its own payload. *)
Example three_helpers_run :
  option_map (fun w => log (finish Dummy_drop_body w))
    (run Dummy_drop_body empty_world
       [ONew 1 10; ONew 2 20; ONew 3 30; OIntoInner 2 4]) =
  Some [PayloadDropped 20; Finalized 2 30; PayloadDropped 30;
        Finalized 0 10; PayloadDropped 10].
Proof. reflexivity. Qed.

Lemma drop_without_into_inner_finalizes_once_witness :
  wf (@empty_world nat) = true /\
  run Dummy_drop_body empty_world [ONew 1 7; ODropCell 1; ONew 2 8; OInner 2] =
    Some {| vars := [(2, VCell 1 (new 8))]; next_iid := 2;
            log := [Finalized 0 7; PayloadDropped 7] |} /\
  fins 0 (log (finish Dummy_drop_body
    {| vars := [(2, VCell 1 (new 8))]; next_iid := 2;
       log := [Finalized 0 7; PayloadDropped 7] |})) = [Finalized 0 7].
Proof.
  split; [reflexivity|]. split; [reflexivity|].
  apply (drop_without_into_inner_finalizes_once Dummy_drop_body empty_world _ 1 7
           [ONew 2 8; OInner 2]); reflexivity.
Defined.

Lemma into_inner_never_finalizes_witness :
  wf (@empty_world nat) = true /\
  run Dummy_drop_body empty_world [ONew 1 7; OIntoInner 1 2; ONew 3 8; ODropVal 2] =
    Some {| vars := [(3, VCell 1 (new 8))]; next_iid := 2;
            log := [PayloadDropped 7] |} /\
  fins 0 (log (finish Dummy_drop_body
    {| vars := [(3, VCell 1 (new 8))]; next_iid := 2;
       log := [PayloadDropped 7] |})) = [].
Proof.
  split; [reflexivity|]. split; [reflexivity|].
  apply (into_inner_never_finalizes Dummy_drop_body empty_world _ 1 2 7
           [ONew 3 8; ODropVal 2]); reflexivity.
Defined.

Lemma finalizer_calls_count_undropped_instances_witness :
  run Dummy_drop_body empty_world
    [ONew 1 10; ONew 2 20; ONew 3 30; OIntoInner 2 4; ODropCell 3; ODropCell 1; ODropVal 4] =
    Some {| vars := []; next_iid := 3;
            log := [Finalized 2 30; PayloadDropped 30; Finalized 0 10;
                    PayloadDropped 10; PayloadDropped 20] |} /\
  nfin (log (finish Dummy_drop_body
    {| vars := []; next_iid := 3;
       log := [Finalized 2 30; PayloadDropped 30; Finalized 0 10;
               PayloadDropped 10; PayloadDropped 20] |})) = 3 - 1 /\ 1 <= 3.
Proof.
  split; [reflexivity|].
  apply (finalizer_calls_count_undropped_instances Dummy_drop_body
           [ONew 1 10; ONew 2 20; ONew 3 30; OIntoInner 2 4; ODropCell 3;
            ODropCell 1; ODropVal 4]).
  reflexivity.
Defined.

Lemma borrows_preserve_finalizer_calls_witness :
  wf (@empty_world nat) = true /\
  run Dummy_drop_body empty_world [ONew 1 7; OInner 1; OInnerMut 1 9; ODropCell 1] =
    Some {| vars := []; next_iid := 1;
            log := [PayloadDropped 7; Finalized 0 9; PayloadDropped 9] |} /\
  run Dummy_drop_body empty_world [ONew 1 7; ODropCell 1] =
    Some {| vars := []; next_iid := 1; log := [Finalized 0 7; PayloadDropped 7] |} /\
  length (fins 0 (log (finish Dummy_drop_body
    {| vars := []; next_iid := 1;
       log := [PayloadDropped 7; Finalized 0 9; PayloadDropped 9] |}))) =
  length (fins 0 (log (finish Dummy_drop_body
    {| vars := []; next_iid := 1; log := [Finalized 0 7; PayloadDropped 7] |}))).
Proof.
  split; [reflexivity|]. split; [reflexivity|]. split; [reflexivity|].
  apply (borrows_preserve_finalizer_calls Dummy_drop_body empty_world _ _ 1 7
           [OInner 1; OInnerMut 1 9] (ODropCell 1) []); reflexivity.
Defined.

Lemma new_inner_inner_mut_access_payload_witness :
  lookup 1 (vars {| vars := [(1, VCell 0 (new 7))]; next_iid := 1; log := [] |}) =
    Some (VCell 0 (new 7)) /\
  ((inner (new 5) = 5 /\ fst (inner_mut (new 5)) = 5) /\
   step Dummy_drop_body {| vars := [(1, VCell 0 (new 7))]; next_iid := 1; log := [] |}
     (OInner 1) = Some {| vars := [(1, VCell 0 (new 7))]; next_iid := 1; log := [] |} /\
   (forall q, exists w',
      step Dummy_drop_body {| vars := [(1, VCell 0 (new 7))]; next_iid := 1; log := [] |}
        (OInnerMut 1 q) = Some w' /\
      lookup 1 (vars w') = Some (VCell 0 (snd (inner_mut (new 7)) q)) /\
      inner (snd (inner_mut (new 7)) q) = q /\
      next_iid w' = 1)).
Proof.
  split; [reflexivity|].
  apply (new_inner_inner_mut_access_payload Dummy_drop_body 5
           {| vars := [(1, VCell 0 (new 7))]; next_iid := 1; log := [] |} 1 0 (new 7)).
  reflexivity.
Defined.

Lemma inner_mut_write_reaches_terminal_witness :
  run Dummy_drop_body empty_world [ONew 1 7; OInnerMut 1 9; OIntoInner 1 2] =
    Some {| vars := [(2, VVal 9)]; next_iid := 1; log := [PayloadDropped 7] |} /\
  run Dummy_drop_body empty_world [ONew 1 7; OInnerMut 1 9; ODropCell 1] =
    Some {| vars := []; next_iid := 1;
            log := [PayloadDropped 7; Finalized 0 9; PayloadDropped 9] |} /\
  (lookup 2 [(2, VVal 9)] = Some (VVal 9) /\
   [PayloadDropped 7; Finalized 0 9; PayloadDropped 9] =
     [] ++ [PayloadDropped 7] ++ DetachedDrop_drop Dummy_drop_body 0 9).
Proof.
  split; [reflexivity|]. split; [reflexivity|].
  apply (inner_mut_write_reaches_terminal Dummy_drop_body empty_world
           {| vars := [(2, VVal 9)]; next_iid := 1; log := [PayloadDropped 7] |}
           {| vars := []; next_iid := 1;
              log := [PayloadDropped 7; Finalized 0 9; PayloadDropped 9] |}
           1 2 7 9); reflexivity.
Defined.

Lemma payload_destructor_runs_once_witness :
  (forall v, Dummy_drop_body v = [v]) /\
  run Dummy_drop_body empty_world [ONew 1 10; OInnerMut 1 11; ONew 2 20; OIntoInner 2 3] =
    Some {| vars := [(3, VVal 20); (1, VCell 0 (new 11))]; next_iid := 2;
            log := [PayloadDropped 10] |} /\
  Permutation
    (dropped (log (finish Dummy_drop_body
       {| vars := [(3, VVal 20); (1, VCell 0 (new 11))]; next_iid := 2;
          log := [PayloadDropped 10] |})))
    [10; 11; 20].
Proof.
  split; [intros v; reflexivity|]. split; [reflexivity|].
  apply (payload_destructor_runs_once Dummy_drop_body
           [ONew 1 10; OInnerMut 1 11; ONew 2 20; OIntoInner 2 3]).
  - intros v; reflexivity.
  - reflexivity.
Defined.

Lemma drop_at_most_once_per_instance_witness :
  exists w,
    run Dummy_drop_body empty_world
      [ONew 1 10; ONew 2 20; OIntoInner 2 3; ODropCell 1; ONew 4 40] = Some w /\
    length (fins 0 (log (finish Dummy_drop_body w))) <= 1.
Proof.
  eexists. split; [reflexivity|].
  apply (drop_at_most_once_per_instance Dummy_drop_body
           [ONew 1 10; ONew 2 20; OIntoInner 2 3; ODropCell 1; ONew 4 40]).
  reflexivity.
Defined.

Lemma payloads_conserved_any_finalizer_witness :
  exists w,
    run (fun _ : nat => []) empty_world
      [ONew 1 10; OInnerMut 1 11; ONew 2 20; OIntoInner 2 3] = Some w /\
    Permutation (dropped (log (finish (fun _ : nat => []) w))
                   ++ handed (log (finish (fun _ : nat => []) w)))
                ([10; 11; 20] ++ flat_map (fun _ : nat => [])
                                  (handed (log (finish (fun _ : nat => []) w)))).
Proof.
  eexists. split; [reflexivity|].
  apply (payloads_conserved_any_finalizer (fun _ : nat => [])
           [ONew 1 10; OInnerMut 1 11; ONew 2 20; OIntoInner 2 3]).
  reflexivity.
Defined.

Lemma scope_end_finalizes_in_reverse_order_witness :
  exists w,
    run Dummy_drop_body empty_world [ONew 1 10; ONew 2 20; ONew 3 30] = Some w /\
    handed (log (finish Dummy_drop_body w)) = [30; 20; 10].
Proof.
  eexists. split; [reflexivity|].
  apply (scope_end_finalizes_in_reverse_order Dummy_drop_body
           [(1, 10); (2, 20); (3, 30)]).
  reflexivity.
Defined.

Lemma test_drop_once_token_witness :
  exists w1 w2,
    run Dummy_drop_body empty_world [ONew 1 7] = Some w1 /\
    run Dummy_drop_body w1 [ODropCell 1] = Some w2 /\
    is_dropped 7 (log w1) = false /\ token_drops 7 (log w2) = 1.
Proof.
  do 2 eexists. split; [reflexivity|]. split; [reflexivity|].
  apply (test_drop_once_token empty_world _ _ 1 7); reflexivity.
Defined.

Lemma test_into_inner_token_witness :
  exists w1 w2 w3,
    run Dummy_drop_body empty_world [ONew 1 7] = Some w1 /\
    run Dummy_drop_body w1 [OIntoInner 1 2] = Some w2 /\
    run Dummy_drop_body w2 [ODropVal 2] = Some w3 /\
    token_drops 7 (log w1) = 0 /\ token_drops 7 (log w2) = 0 /\
    token_drops 7 (log w3) = 1.
Proof.
  do 3 eexists. split; [reflexivity|]. split; [reflexivity|]. split; [reflexivity|].
  apply (test_into_inner_token empty_world _ _ _ 1 2 7); reflexivity.
Defined.
